(** * kk: package util (src/util/k8s.go)

  A shallow embedding of the option resolver, the resource listers, the
  string helpers and the kubectl command runner, together with the
  properties stated about them.  [GetAge] only hands its argument to the
  duration formatter of a library and is not embedded.

  Go strings are byte sequences: they are modelled by [string], whose
  characters are the 8-bit [ascii] values.  A Go [map[string]string] is a
  [gmap string string].  A Go [error] is [option string]: [None] is [nil],
  [Some e] is an error whose [Error()] text is [e]. *)

From Stdlib Require Import Ascii String.
From stdpp Require Import base option list strings gmap fin_maps.

Local Open Scope list_scope.

Abbreviation error := (option string).

(** ** The parts of Go's [strings] package that util calls *)
Module gostrings.

(** [len(s)]: the number of bytes. *)
Abbreviation len := String.length.

(** [s[lo:hi]] for [lo <= hi <= len(s)]. *)
Definition slice (s : string) (lo hi : nat) : string :=
  String.substring lo (hi - lo) s.

(** [s[i]], the byte at index [i]; Go panics out of range, hence [option]. *)
Definition index (s : string) (i : nat) : option ascii := String.get i s.

(** [strings.Join(elems, sep)]. *)
Fixpoint Join (elems : list string) (sep : string) : string :=
  match elems with
  | [] => ""
  | [e] => e
  | e :: rest => e +:+ sep +:+ Join rest sep
  end.

(** [strings.Split(s, sep)] for a separator [sep] of one byte, the way
    [RunCommand] calls it: the pieces between the occurrences of [sep],
    one more piece than there are occurrences. *)
Fixpoint Split (s : string) (sep : ascii) : list string :=
  match s with
  | EmptyString => [""]
  | String c rest =>
      if decide (c = sep) then "" :: Split rest sep
      else match Split rest sep with
           | [] => [String c ""]
           | piece :: pieces => String c piece :: pieces
           end
  end.

(** The table [asciiSpace] of strings.go: tab, newline, vertical tab,
    form feed, carriage return and space. *)
Definition asciiSpace (c : ascii) : bool :=
  let n := nat_of_ascii c in
  bool_decide (n = 9 ∨ n = 10 ∨ n = 11 ∨ n = 12 ∨ n = 13 ∨ n = 32).

(** [utf8.RuneSelf]: bytes below it are one-byte characters. *)
Definition RuneSelf : nat := 128.

(** The Unicode-aware trimming that [TrimSpace] falls back to when it
    meets a byte that is not ASCII.  It belongs to Go's library (UTF-8
    decoding and the White_Space table) and is taken as an interface. *)
Class UnicodeTrim := {
  TrimFunc_IsSpace : string → string;
  TrimRightFunc_IsSpace : string → string
}.

Section TrimSpace.
Context `{UnicodeTrim}.

(** The second loop of [TrimSpace], on the reversed remainder: [rs] is
    [s[start:stop]] read from its last byte.  The result is again in
    reading order. *)
Fixpoint trim_stop (rs : string) : string :=
  match rs with
  | EmptyString => ""
  | String c rest =>
      if decide (RuneSelf ≤ nat_of_ascii c)%nat
      then TrimRightFunc_IsSpace (String.rev rs)
      else if asciiSpace c then trim_stop rest
      else String.rev rs
  end.

(** The first loop of [TrimSpace]: [s] is [s[start:]]. *)
Fixpoint trim_start (s : string) : string :=
  match s with
  | EmptyString => ""
  | String c rest =>
      if decide (RuneSelf ≤ nat_of_ascii c)%nat then TrimFunc_IsSpace s
      else if asciiSpace c then trim_start rest
      else trim_stop (String.rev s)
  end.

(** [strings.TrimSpace(s)]. *)
Definition TrimSpace (s : string) : string := trim_start s.

End TrimSpace.

End gostrings.

(** ** The parts of Go's [fmt] package that util calls *)
Module gofmt.

(** The verb [%v] applied to a [[]string]: the elements separated by one
    space, inside square brackets. *)
Definition v_strings (xs : list string) : string :=
  "[" +:+ gostrings.Join xs " " +:+ "]".

End gofmt.

(** ** The records of the packages util imports *)
Module options.

(** [options.SearchOptions], with the fields that util reads. *)
Record SearchOptions := {
  Namespace : string;
  AllNamespaces : bool;
  Selector : string;
  FieldSelector : string
}.

End options.

Module metav1.

(** [metav1.ListOptions], with the fields that util sets. *)
Record ListOptions := {
  LabelSelector : string;
  FieldSelector : string
}.

#[global] Instance ListOptions_eq_dec : EqDecision ListOptions.
Proof. solve_decision. Defined.

End metav1.

(** ** Package util *)
Module util.

(** The bytes util compares with or splits at. *)
Definition DQUOTE : ascii := "034"%char.
Definition SQUOTE : ascii := "'"%char.
Definition LF : ascii := "010"%char.

(** [TrimQuoteAndSpace], lines 152-162. *)
Definition TrimQuoteAndSpace `{gostrings.UnicodeTrim} (input : string)
    : string :=
  let n := gostrings.len input in
  if decide (2 ≤ n)%nat then
    if decide (gostrings.index input 0 = Some DQUOTE
               ∧ gostrings.index input (n - 1) = Some DQUOTE)
    then gostrings.slice input 1 (n - 1)
    else if decide (gostrings.index input 0 = Some SQUOTE
                    ∧ gostrings.index input (n - 1) = Some SQUOTE)
    then gostrings.slice input 1 (n - 1)
    else gostrings.TrimSpace input
  else gostrings.TrimSpace input.

(** [append(s, x)] on the contents of a slice: the elements of [s]
    followed by [x].  The capacity and the backing array of a slice are
    left out: util hands the result on and never reads the slice it
    appended to again. *)
Definition append (s : list string) (x : string) : list string := s ++ [x].

(** [K8sCommandArgs], lines 206-217. *)
Definition K8sCommandArgs (args : list string)
    (namespace context labels : string) : list string :=
  let args :=
    if decide (namespace ≠ "")
    then append args ("--namespace=" +:+ namespace) else args in
  let args :=
    if decide (context ≠ "")
    then append args ("--context=" +:+ context) else args in
  let args :=
    if decide (labels ≠ "")
    then append args ("--selector=" +:+ labels) else args in
  args.

(** A [range] over a map yields every entry once, in an order the
    runtime chooses afresh each time. *)
Definition range_order (m : gmap string string)
    (visit : list (string * string)) : Prop :=
  visit ≡ₚ map_to_list m.

(** The body of the loop of [KeysString], line 182. *)
Definition KeysString_step (keys : list string) (kv : string * string)
    : list string :=
  append keys (kv.1 +:+ "=" +:+ kv.2).
Arguments KeysString_step _ _ /.

(** [KeysString], lines 179-185, once the order [visit] of the
    iteration is fixed. *)
Definition KeysString_visiting (visit : list (string * string)) : string :=
  let keys := foldl KeysString_step [] visit in
  gostrings.Join keys ",".

(** [KeysString m] may return [s]. *)
Inductive KeysString (m : gmap string string) : string → Prop :=
  | KeysString_intro visit :
      range_order m visit → KeysString m (KeysString_visiting visit).

(** The resource kinds whose list endpoint takes a namespace.  Nodes are
    cluster-scoped and have an endpoint of their own. *)
Inductive NamespacedKind :=
  | DaemonSets | Deployments | Pods | ConfigMaps | Secrets
  | StatefulSets | Services.

#[global] Instance NamespacedKind_eq_dec : EqDecision NamespacedKind.
Proof. solve_decision. Defined.

(** What a call of util does to the outside, in the order it happens. *)
Inductive Event :=
  | ConfigNamespace
      (* client.ClientConfig().Namespace() *)
  | LogDebug (msg err : string)
      (* log.WithFields(log.Fields{"err": err}).Debug(msg) *)
  | ListNamespaced (k : NamespacedKind) (ns : string) (o : metav1.ListOptions)
      (* clientset.<Group>().<Kind>(ns).List(o) *)
  | ListNodes (o : metav1.ListOptions)
      (* clientset.CoreV1().Nodes().List(o) *)
  | Exec (name : string) (args : list string)
      (* exec.Command(name, args...).CombinedOutput() *)
  | Stdout (text : string).
      (* fmt.Printf *)

#[global] Instance Event_eq_dec : EqDecision Event.
Proof. solve_decision. Defined.

(** The calls to the cluster API among the events. *)
Definition is_api_call (e : Event) : bool :=
  match e with
  | ListNamespaced _ _ _ | ListNodes _ => true
  | _ => false
  end.

Definition api_calls (t : list Event) : list Event :=
  List.filter is_api_call t.
Arguments api_calls : simpl never.

Section WithCluster.

(** The result types of the list endpoints ([*appsv1.DaemonSetList],
    [*corev1.PodList], ...; [nil] is one of their values). *)
Context {ListOf : NamespacedKind → Type} {NodeListT : Type}.

(** The answers of the collaborators: the kubeconfig loader, the cluster
    client and the operating system. *)
Record World := {
  config_namespace : string * bool * error;
  list_namespaced : ∀ k, string → metav1.ListOptions → ListOf k * error;
  list_nodes : metav1.ListOptions → NodeListT * error;
  combined_output : string → list string → string * error
}.

(** Computations of util: they read the world and extend the trace. *)
Definition M (A : Type) : Type := World → list Event → A * list Event.

#[export] Instance M_ret : MRet M := λ A a _ t, (a, t).
#[export] Instance M_bind : MBind M :=
  λ A B f c w t, let '(a, t') := c w t in f a w t'.

Definition emit (e : Event) : M unit := λ _ t, (tt, t ++ [e]).
Definition ask {A} (f : World → A) : M A := λ w t, (f w, t).

Definition client_ClientConfig_Namespace : M (string * bool * error) :=
  _ ← emit ConfigNamespace; ask config_namespace.

Definition log_Debug (msg err : string) : M unit := emit (LogDebug msg err).

Definition clientset_List (k : NamespacedKind) (ns : string)
    (o : metav1.ListOptions) : M (ListOf k * error) :=
  _ ← emit (ListNamespaced k ns o); ask (λ w, list_namespaced w k ns o).

Definition clientset_Nodes_List (o : metav1.ListOptions)
    : M (NodeListT * error) :=
  _ ← emit (ListNodes o); ask (λ w, list_nodes w o).

Definition exec_CombinedOutput (name : string) (args : list string)
    : M (string * error) :=
  _ ← emit (Exec name args); ask (λ w, combined_output w name args).

Definition fmt_Printf (text : string) : M unit := emit (Stdout text).

(** [if err != nil { log...Debug(msg) }] *)
Definition debug_if_err (err : error) (msg : string) : M unit :=
  match err with
  | Some e => log_Debug msg e
  | None => mret tt
  end.

(** [SetOptions], lines 26-54. *)
Definition SetOptions (opt : options.SearchOptions)
    : M (string * metav1.ListOptions) :=
  let namespace := "default" in
  namespace ←
    (if options.AllNamespaces opt then mret ""
     else if decide (0 < gostrings.len (options.Namespace opt))%nat
     then mret (options.Namespace opt)
     else
       '(ns, _, err) ← client_ClientConfig_Namespace;
       match err with
       | Some e =>
           _ ← log_Debug "Failed to resolve namespace" e; mret namespace
       | None => mret ns
       end);
  let listOptions :=
    {| metav1.LabelSelector := options.Selector opt;
       metav1.FieldSelector := options.FieldSelector opt |} in
  mret (namespace, listOptions).

(** The listers that pass the resolved namespace, lines 56-90 and
    104-149. *)
Definition list_in_namespace (k : NamespacedKind) (msg : string)
    (opt : options.SearchOptions) : M (ListOf k) :=
  '(ns, o) ← SetOptions opt;
  '(list, err) ← clientset_List k ns o;
  _ ← debug_if_err err msg;
  mret list.

Definition DaemonsetList := list_in_namespace DaemonSets "Unable to get DaemonSet List".
Definition DeploymentList := list_in_namespace Deployments "Unable to get Deployment List".
Definition PodList := list_in_namespace Pods "Unable to get Pod List".
Definition ConfigMapList := list_in_namespace ConfigMaps "Unable to get ConfigMap List".
Definition SecretList := list_in_namespace Secrets "Unable to get Secret List".
Definition StatefulSetList := list_in_namespace StatefulSets "Unable to get .StatefulSet List".
Definition ServiceList := list_in_namespace Services "Unable to get .Services List".

(** [NodeList], lines 93-102. *)
Definition NodeList (opt : options.SearchOptions) : M NodeListT :=
  '(_, o) ← SetOptions opt;
  '(list, err) ← clientset_Nodes_List o;
  _ ← debug_if_err err "Unable to get Node List";
  mret list.

(** [RunCommand], lines 187-198. *)
Definition RunCommand (name : string) (args : list string)
    : M (list string) :=
  '(cmdOut, err) ← exec_CombinedOutput name args;
  _ ← (if err is Some _
       then fmt_Printf ("error running command: " +:+ name +:+ " "
                        +:+ gofmt.v_strings args +:+ String LF "")
       else mret tt);
  let output := gostrings.Split cmdOut LF in
  mret output.

(** [RawK8sOutput], lines 200-204. *)
Definition RawK8sOutput (namespace context labels : string)
    (args : list string) : M (list string) :=
  let cmdArgs := K8sCommandArgs args namespace context labels in
  RunCommand "kubectl" cmdArgs.

End WithCluster.



End util.

(** ** Vocabulary of the statements *)
Module spec.

(** The list options that carry the two selectors of [opt]. *)
Definition listOptions_of (opt : options.SearchOptions)
    : metav1.ListOptions :=
  {| metav1.LabelSelector := options.Selector opt;
     metav1.FieldSelector := options.FieldSelector opt |}.

(** The flag contributed by one input of [K8sCommandArgs]: nothing for
    an empty value, one argument otherwise. *)
Definition flag (name value : string) : list string :=
  if decide (value = "") then [] else [name +:+ value].

(** How many of the strings [xs] are not empty. *)
Definition count_nonempty (xs : list string) : nat :=
  length (List.filter (λ x, negb (String.eqb x "")) xs).

(** One entry rendered the way line 182 does. *)
Definition pair_string (kv : string * string) : string :=
  kv.1 +:+ "=" +:+ kv.2.

(** The line [RunCommand] prints when the command fails, line 193. *)
Definition diagnostic (name : string) (args : list string) : string :=
  "error running command: " +:+ name +:+ " " +:+ gofmt.v_strings args
  +:+ String util.LF "".

(** Every byte of [s] satisfies [P]. *)
Fixpoint string_forall (P : ascii → Prop) (s : string) : Prop :=
  match s with
  | EmptyString => True
  | String c rest => P c ∧ string_forall P rest
  end.

(** [s] is ASCII text: no byte reaches [utf8.RuneSelf]. *)
Definition is_ascii (s : string) : Prop :=
  string_forall (λ c, (nat_of_ascii c < gostrings.RuneSelf)%nat) s.

(** [s] consists of ASCII white space only. *)
Definition all_space (s : string) : Prop :=
  string_forall (λ c, gostrings.asciiSpace c = true) s.

(** The byte [c] does not occur in [s]. *)
Definition free_of (c : ascii) (s : string) : Prop :=
  string_forall (λ c', c' ≠ c) s.

(** How often the byte [c] occurs in [s]. *)
Fixpoint count_byte (c : ascii) (s : string) : nat :=
  match s with
  | EmptyString => 0
  | String c' rest => (if decide (c' = c) then 1 else 0) + count_byte c rest
  end.

(** What a trace holds of writes to standard output, of kubeconfig
    lookups and of debug log entries. *)
Definition is_stdout (e : util.Event) : bool :=
  match e with util.Stdout _ => true | _ => false end.

Definition is_lookup (e : util.Event) : bool :=
  match e with util.ConfigNamespace => true | _ => false end.

Definition is_debug (e : util.Event) : bool :=
  match e with util.LogDebug _ _ => true | _ => false end.

Definition printed (t : list util.Event) : list util.Event :=
  List.filter is_stdout t.

Definition lookups (t : list util.Event) : list util.Event :=
  List.filter is_lookup t.

Definition debug_entries (t : list util.Event) : list util.Event :=
  List.filter is_debug t.

(** The lister [f] makes one call to the cluster API: the list endpoint
    of kind [k], with the namespace the resolver gives and the list
    options of the search options. *)
Definition lists_kind {ListOf : util.NamespacedKind → Type} {NodeListT : Type}
    (k : util.NamespacedKind)
    (f : options.SearchOptions → @util.M ListOf NodeListT (ListOf k))
    : Prop :=
  ∀ opt w t,
    util.api_calls (f opt w t).2
    = util.api_calls t
      ++ [util.ListNamespaced k (util.SetOptions opt w t).1.1
            (listOptions_of opt)].

(** The lister [f] returns what the endpoint of kind [k] returned,
    failed or not; it prints nothing, and after the resolver's entries
    it logs [msg] with the error when there is one and nothing else. *)
Definition swallows_error {ListOf : util.NamespacedKind → Type}
    {NodeListT : Type} (k : util.NamespacedKind) (msg : string)
    (f : options.SearchOptions → @util.M ListOf NodeListT (ListOf k))
    : Prop :=
  ∀ opt w t,
    let answer :=
      util.list_namespaced w k (util.SetOptions opt w t).1.1
        (listOptions_of opt) in
    (f opt w t).1 = answer.1
    ∧ printed (f opt w t).2 = printed t
    ∧ debug_entries (f opt w t).2
      = debug_entries (util.SetOptions opt w t).2
        ++ (if answer.2 is Some e then [util.LogDebug msg e] else []).

(** The total length of the key=value renderings of [entries]: for each
    entry its key, the equals sign and its value. *)
Definition rendered_length (entries : list (string * string)) : nat :=
  sum_list_with (λ kv, gostrings.len kv.1 + 1 + gostrings.len kv.2)%nat
    entries.

(** The byte that separates the pairs in the result of [KeysString]. *)
Definition COMMA : ascii := ","%char.

End spec.

(** ** Two concrete worlds, used to run the definitions *)
Module samples.

Definition Lists : util.NamespacedKind → Type := λ _, list string.

(** A cluster that answers, with a kubeconfig whose context names the
    namespace staging. *)
Definition healthy : @util.World Lists (list string) := {|
  util.config_namespace := ("staging", false, None);
  util.list_namespaced := λ _ ns _, ([ns +:+ "/item"], None);
  util.list_nodes := λ _, (["node-1"], None);
  util.combined_output := λ _ _, ("pod-a" +:+ String util.LF "pod-b", None)
|}.

(** No kubeconfig, no cluster, no kubectl binary. *)
Definition broken : @util.World Lists (list string) := {|
  util.config_namespace := ("", false, Some "invalid configuration");
  util.list_namespaced := λ _ _ _, ([], Some "connection refused");
  util.list_nodes := λ _, ([], Some "connection refused");
  util.combined_output := λ _ _, ("", Some "executable file not found")
|}.

(** kubectl runs and prints nothing. *)
Definition silent : @util.World Lists (list string) := {|
  util.config_namespace := ("staging", false, None);
  util.list_namespaced := λ _ _ _, ([], None);
  util.list_nodes := λ _, ([], None);
  util.combined_output := λ _ _, ("", None)
|}.

(** With Go's Unicode fallback left out: none of the inputs below holds a
    byte that is not ASCII. *)
Definition ascii_only : gostrings.UnicodeTrim := {|
  gostrings.TrimFunc_IsSpace := id;
  gostrings.TrimRightFunc_IsSpace := id
|}.

Definition opts (ns : string) (all : bool) : options.SearchOptions := {|
  options.Namespace := ns;
  options.AllNamespaces := all;
  options.Selector := "app=x";
  options.FieldSelector := "status.phase=Running"
|}.

End samples.

(** * Properties *)

Import util spec.

(** ** The option resolver *)
Section Resolver.
Context {ListOf : NamespacedKind → Type} {NodeListT : Type}.
Implicit Types (w : @World ListOf NodeListT) (t : list Event).
Implicit Types (opt : options.SearchOptions).

Lemma len_pos_iff (s : string) : (0 < gostrings.len s)%nat ↔ s ≠ "".
Proof. destruct s; simpl; split; (congruence || lia). Qed.

(** [SetOptions] unfolded along its three branches. *)
Lemma SetOptions_unfold w t opt :
  SetOptions opt w t =
    if options.AllNamespaces opt then ("", listOptions_of opt, t)
    else if decide (options.Namespace opt = "") then
      match config_namespace w with
      | (ns, _, None) => (ns, listOptions_of opt, t ++ [ConfigNamespace])
      | (_, _, Some e) =>
          ("default", listOptions_of opt,
           t ++ [ConfigNamespace; LogDebug "Failed to resolve namespace" e])
      end
    else (options.Namespace opt, listOptions_of opt, t).
Proof.
  unfold SetOptions, listOptions_of.
  destruct (options.AllNamespaces opt); [done|].
  destruct (decide (0 < _)%nat) as [Hlen|Hlen];
    apply len_pos_iff in Hlen || rewrite len_pos_iff in Hlen.
  - by rewrite decide_False.
  - rewrite decide_True by (by destruct (decide (options.Namespace opt = ""))).
    unfold client_ClientConfig_Namespace, log_Debug, emit, ask.
    unfold mbind, M_bind, mret, M_ret; simpl.
    destruct (config_namespace w) as [[ns ov] [e|]]; simpl; [|done].
    by rewrite <- app_assoc.
Qed.

(** The list options never depend on the namespace fields, and the
    resolver makes no call to the cluster API. *)
Lemma SetOptions_frame w t opt :
  (SetOptions opt w t).1.2 = listOptions_of opt
  ∧ api_calls (SetOptions opt w t).2 = api_calls t.
Proof.
  rewrite SetOptions_unfold.
  destruct (options.AllNamespaces opt); [done|].
  destruct (decide _) as [Hns|Hns]; [|done].
  destruct (config_namespace w) as [[ns ov] [e|]]; simpl;
    unfold api_calls; rewrite List.filter_app; simpl;
    by rewrite app_nil_r.
Qed.

(** C1: when AllNamespaces is set, [SetOptions] resolves the namespace to
    the empty string, whatever the Namespace field holds; it looks
    nothing up and logs nothing. *)
Theorem SetOptions_all_namespaces w t ns sel fsel :
  SetOptions {| options.Namespace := ns; options.AllNamespaces := true;
                options.Selector := sel; options.FieldSelector := fsel |}
             w t
  = ("", {| metav1.LabelSelector := sel; metav1.FieldSelector := fsel |}, t).
Proof. by rewrite SetOptions_unfold. Qed.

(** C2: with AllNamespaces unset and a non-empty Namespace, [SetOptions]
    resolves the namespace to exactly that string. *)
Theorem SetOptions_explicit_namespace w t opt :
  options.AllNamespaces opt = false →
  options.Namespace opt ≠ "" →
  (SetOptions opt w t).1.1 = options.Namespace opt.
Proof.
  intros Hall Hns. rewrite SetOptions_unfold, Hall.
  by rewrite decide_False.
Qed.

(** C3: with AllNamespaces unset and an empty Namespace, [SetOptions]
    resolves the namespace to the one the kubeconfig lookup returns when
    the lookup succeeds and to the literal default when it fails; a
    failed lookup leaves a debug log entry and nothing else: the result
    carries no error and nothing is printed. *)
Theorem SetOptions_ambient_namespace w t opt ns ov err :
  options.AllNamespaces opt = false →
  options.Namespace opt = "" →
  config_namespace w = (ns, ov, err) →
  (SetOptions opt w t).1.1 = (if err is None then ns else "default")
  ∧ (SetOptions opt w t).2 =
      t ++ ConfigNamespace ::
        (if err is Some e
         then [LogDebug "Failed to resolve namespace" e] else []).
Proof.
  intros Hall Hns Hcfg. rewrite SetOptions_unfold, Hall, Hcfg.
  rewrite decide_True by done. by destruct err.
Qed.

End Resolver.

Lemma SetOptions_explicit_namespace_witness :
  options.AllNamespaces (samples.opts "kube-system" false) = false
  ∧ options.Namespace (samples.opts "kube-system" false) ≠ ""
  ∧ (SetOptions (samples.opts "kube-system" false) samples.healthy []).1.1
    = "kube-system".
Proof.
  split; [reflexivity|]. split; [discriminate|].
  apply (SetOptions_explicit_namespace samples.healthy []
           (samples.opts "kube-system" false)); [reflexivity|discriminate].
Defined.

Lemma SetOptions_ambient_namespace_witness :
  (SetOptions (samples.opts "" false) samples.broken []).1.1 = "default"
  ∧ (SetOptions (samples.opts "" false) samples.broken []).2
    = [ConfigNamespace;
       LogDebug "Failed to resolve namespace" "invalid configuration"].
Proof.
  apply (SetOptions_ambient_namespace samples.broken [] (samples.opts "" false)
           "" false (Some "invalid configuration")); reflexivity.
Defined.

(** The same options against a kubeconfig that names a namespace. *)
Example SetOptions_ambient_namespace_found :
  SetOptions (samples.opts "" false) samples.healthy []
  = ("staging", listOptions_of (samples.opts "" false), [ConfigNamespace]).
Proof. reflexivity. Qed.

(** ** The listers *)
Section Listers.
Context {ListOf : NamespacedKind → Type} {NodeListT : Type}.
Implicit Types (w : @World ListOf NodeListT) (t : list Event).
Implicit Types (opt : options.SearchOptions).

Lemma api_calls_app t1 t2 : api_calls (t1 ++ t2) = api_calls t1 ++ api_calls t2.
Proof. apply List.filter_app. Qed.

Lemma bind_run {A B} (c : M A) (f : A → M B) w t :
  (c ≫= f) w t = let '(a, t') := c w t in f a w t'.
Proof. reflexivity. Qed.

Lemma debug_if_err_run w t err msg :
  debug_if_err err msg w t
  = (tt, t ++ if err is Some e then [LogDebug msg e] else []).
Proof. destruct err; simpl; [done|]. by rewrite app_nil_r. Qed.

(** What [NodeList] returns and which calls it makes to the cluster. *)
Lemma NodeList_run w t opt :
  (NodeList opt w t).1 = (list_nodes w (listOptions_of opt)).1
  ∧ api_calls (NodeList opt w t).2
    = api_calls t ++ [ListNodes (listOptions_of opt)].
Proof.
  destruct (SetOptions_frame w t opt) as [Ho Hcalls].
  unfold NodeList, clientset_Nodes_List, emit, ask.
  rewrite !bind_run.
  destruct (SetOptions opt w t) as [[ns o] t'].
  simpl in Ho, Hcalls. subst o. rewrite !bind_run. simpl.
  destruct (list_nodes w (listOptions_of opt)) as [list err].
  rewrite bind_run, debug_if_err_run. simpl. split; [done|].
  rewrite !api_calls_app, Hcalls.
  destruct err; by rewrite ?app_nil_r.
Qed.

(** What a namespaced lister returns and which calls it makes. *)
Lemma list_in_namespace_run k msg w t opt :
  let ns := (SetOptions opt w t).1.1 in
  (list_in_namespace k msg opt w t).1
    = (list_namespaced w k ns (listOptions_of opt)).1
  ∧ api_calls (list_in_namespace k msg opt w t).2
    = api_calls t ++ [ListNamespaced k ns (listOptions_of opt)].
Proof.
  destruct (SetOptions_frame w t opt) as [Ho Hcalls].
  unfold list_in_namespace, clientset_List, emit, ask.
  rewrite !bind_run.
  destruct (SetOptions opt w t) as [[ns o] t'].
  simpl in Ho, Hcalls. subst o. rewrite !bind_run. simpl.
  destruct (list_namespaced w k ns (listOptions_of opt)) as [list err].
  rewrite bind_run, debug_if_err_run. simpl. split; [done|].
  rewrite !api_calls_app, Hcalls.
  destruct err; by rewrite ?app_nil_r.
Qed.

(** C8: [NodeList] ignores the resolved namespace.  Two sets of options
    with the same label and field selectors make it issue the same
    single call, the cluster-scoped listing of nodes with those list
    options and no namespace, and return the same list. *)
Theorem NodeList_ignores_namespace w t opt1 opt2 :
  options.Selector opt1 = options.Selector opt2 →
  options.FieldSelector opt1 = options.FieldSelector opt2 →
  api_calls (NodeList opt1 w t).2
    = api_calls t ++ [ListNodes (listOptions_of opt1)]
  ∧ api_calls (NodeList opt2 w t).2 = api_calls (NodeList opt1 w t).2
  ∧ (NodeList opt2 w t).1 = (NodeList opt1 w t).1.
Proof.
  intros Hsel Hfsel.
  assert (listOptions_of opt2 = listOptions_of opt1) as Heq
    by (unfold listOptions_of; congruence).
  destruct (NodeList_run w t opt1) as [Hret1 Hcalls1].
  destruct (NodeList_run w t opt2) as [Hret2 Hcalls2].
  rewrite Hret1, Hret2, Hcalls1, Hcalls2, Heq. done.
Qed.

End Listers.

Lemma NodeList_ignores_namespace_witness :
  api_calls (NodeList (samples.opts "kube-system" false) samples.healthy []).2
    = [ListNodes (listOptions_of (samples.opts "kube-system" false))]
  ∧ api_calls (NodeList (samples.opts "" true) samples.healthy []).2
    = api_calls (NodeList (samples.opts "kube-system" false) samples.healthy []).2
  ∧ (NodeList (samples.opts "" true) samples.healthy []).1
    = (NodeList (samples.opts "kube-system" false) samples.healthy []).1.
Proof.
  apply (NodeList_ignores_namespace samples.healthy []
           (samples.opts "kube-system" false) (samples.opts "" true));
    reflexivity.
Defined.

(** A namespaced lister, by contrast, passes the namespace on. *)
Example PodList_passes_namespace :
  api_calls (PodList (samples.opts "kube-system" false) samples.healthy []).2
  = [ListNamespaced Pods "kube-system"
       (listOptions_of (samples.opts "kube-system" false))]
  ∧ api_calls (PodList (samples.opts "" true) samples.healthy []).2
  = [ListNamespaced Pods "" (listOptions_of (samples.opts "" true))].
Proof. split; reflexivity. Qed.

(** ** kubectl argument assembly *)
Section CommandArgs.
Implicit Types (args : list string) (namespace context labels : string).

Lemma K8sCommandArgs_unfold args namespace context labels :
  K8sCommandArgs args namespace context labels
  = args ++ flag "--namespace=" namespace ++ flag "--context=" context
         ++ flag "--selector=" labels.
Proof.
  unfold K8sCommandArgs, flag, append.
  repeat case_decide; simplify_eq; rewrite <- ?app_assoc, ?app_nil_r; done.
Qed.

Lemma flag_length name value :
  length (flag name value) = if decide (value = "") then 0 else 1.
Proof. unfold flag. by case_decide. Qed.

(** C4: [K8sCommandArgs] returns the input arguments followed by the
    namespace flag, the context flag and the selector flag, in that
    order, each present exactly when its input is not empty; on get pods
    with ns1, ctx1 and app=x it returns the five arguments of the
    example. *)
Theorem K8sCommandArgs_appends_flags args namespace context labels :
  K8sCommandArgs args namespace context labels
  = args
    ++ (if decide (namespace = "") then [] else ["--namespace=" +:+ namespace])
    ++ (if decide (context = "") then [] else ["--context=" +:+ context])
    ++ (if decide (labels = "") then [] else ["--selector=" +:+ labels])
  ∧ K8sCommandArgs ["get"; "pods"] "ns1" "ctx1" "app=x"
    = ["get"; "pods"; "--namespace=ns1"; "--context=ctx1";
       "--selector=app=x"].
Proof. split; [apply K8sCommandArgs_unfold | reflexivity]. Qed.

Lemma count_nonempty_flags namespace context labels :
  length (flag "--namespace=" namespace ++ flag "--context=" context
          ++ flag "--selector=" labels)
  = count_nonempty [namespace; context; labels].
Proof.
  rewrite !length_app, !flag_length. unfold count_nonempty; simpl.
  repeat case_decide; simplify_eq; simpl; try done;
    repeat (match goal with
            | H : ?v ≠ "" |- context [String.eqb ?v ""] =>
                destruct (String.eqb_spec v ""); [done|]
            end); done.
Qed.

(** C10: the result of [K8sCommandArgs] starts with the input arguments,
    unchanged and in their order, and its length is the input length
    plus the number of non-empty strings among namespace, context and
    labels, which is at most three. *)
Theorem K8sCommandArgs_frame args namespace context labels :
  let result := K8sCommandArgs args namespace context labels in
  args `prefix_of` result
  ∧ take (length args) result = args
  ∧ length result
    = length args + count_nonempty [namespace; context; labels]
  ∧ count_nonempty [namespace; context; labels] ≤ 3.
Proof.
  simpl. rewrite K8sCommandArgs_unfold. split_and!.
  - by eexists.
  - by rewrite take_app_length.
  - by rewrite length_app, count_nonempty_flags.
  - unfold count_nonempty. etrans; [apply List.filter_length_le|done].
Qed.

End CommandArgs.

(** ** The command runner *)
Section Runner.
Context {ListOf : NamespacedKind → Type} {NodeListT : Type}.
Implicit Types (w : @World ListOf NodeListT) (t : list Event).
Implicit Types (name : string) (args : list string).

(** Splitting never yields the empty list. *)
Lemma Split_nonempty (s : string) (sep : ascii) : gostrings.Split s sep ≠ [].
Proof.
  destruct s as [|c rest]; simpl; [done|].
  case_decide; [done|]. by destruct (gostrings.Split rest sep).
Qed.

(** Joining the pieces with the separator gives the string back. *)
Lemma Join_Split (s : string) (sep : ascii) :
  gostrings.Join (gostrings.Split s sep) (String sep "") = s.
Proof.
  induction s as [|c rest IH]; simpl; [done|].
  pose proof (Split_nonempty rest sep) as Hne.
  case_decide as Hc.
  - subst c. destruct (gostrings.Split rest sep) as [|p ps]; [done|].
    simpl in *. by rewrite IH.
  - destruct (gostrings.Split rest sep) as [|p [|p' ps]]; [done|..];
      simpl in *; by rewrite <- IH.
Qed.

(** No piece contains the separator. *)
Lemma Split_pieces (s : string) (sep : ascii) :
  Forall (λ piece, sep ∉ list_ascii_of_string piece) (gostrings.Split s sep).
Proof.
  induction s as [|c rest IH]; simpl.
  - repeat constructor. simpl. apply not_elem_of_nil.
  - case_decide as Hc.
    + constructor; [apply not_elem_of_nil | done].
    + destruct (gostrings.Split rest sep) as [|p ps]; simpl.
      * repeat constructor. simpl.
        apply not_elem_of_cons; split; [done|apply not_elem_of_nil].
      * inversion IH; subst. constructor; [|done]. simpl.
        by apply not_elem_of_cons.
Qed.

(** [RunCommand] in one step: the value and the trace. *)
Lemma RunCommand_run name args w t :
  RunCommand name args w t
  = (gostrings.Split (combined_output w name args).1 LF,
     t ++ Exec name args ::
       (if (combined_output w name args).2 is Some _
        then [Stdout (diagnostic name args)] else [])).
Proof.
  unfold RunCommand, exec_CombinedOutput, fmt_Printf, emit, ask, diagnostic.
  unfold mbind, M_bind, mret, M_ret. simpl.
  destruct (combined_output w name args) as [cmdOut [e|]]; simpl; [|done].
  by rewrite <- app_assoc.
Qed.

(** C6: [RunCommand] returns the combined output split at newlines
    whether or not the command failed; a failure shows only as one
    diagnostic line on standard output, and the returned value is the
    same for a failed and a successful run with the same output. *)
Theorem RunCommand_returns_output_on_failure name args w t :
  (RunCommand name args w t).1
    = gostrings.Split (combined_output w name args).1 LF
  ∧ (RunCommand name args w t).2
    = t ++ Exec name args ::
        (if (combined_output w name args).2 is Some _
         then [Stdout (diagnostic name args)] else [])
  ∧ ∀ w', (combined_output w' name args).1 = (combined_output w name args).1 →
          (RunCommand name args w' t).1 = (RunCommand name args w t).1.
Proof.
  rewrite RunCommand_run. simpl. split_and!; [done..|].
  intros w' Hout. by rewrite RunCommand_run, Hout.
Qed.

(** C9: [RunCommand] never returns the empty list, so its first element
    exists; for an empty output it returns the one-element list that
    holds the empty string. *)
Theorem RunCommand_result_nonempty name args w t :
  (RunCommand name args w t).1 ≠ []
  ∧ is_Some ((RunCommand name args w t).1 !! 0)
  ∧ ((combined_output w name args).1 = "" →
     (RunCommand name args w t).1 = [""]).
Proof.
  rewrite RunCommand_run. simpl.
  pose proof (Split_nonempty (combined_output w name args).1 LF) as Hne.
  split_and!; [done| |by intros ->].
  destruct (gostrings.Split _ _); [done|]. by eexists.
Qed.

End Runner.

Lemma RunCommand_returns_output_on_failure_witness :
  (RunCommand "kubectl" ["get"; "pods"] samples.broken []).1 = [""]
  ∧ (RunCommand "kubectl" ["get"; "pods"] samples.broken []).2
    = [Exec "kubectl" ["get"; "pods"];
       Stdout ("error running command: kubectl [get pods]" +:+ String LF "")]
  ∧ (RunCommand "kubectl" ["get"; "pods"] samples.silent []).1
    = (RunCommand "kubectl" ["get"; "pods"] samples.broken []).1.
Proof.
  destruct (RunCommand_returns_output_on_failure "kubectl" ["get"; "pods"]
              samples.broken []) as (Hret & Htrace & Hsame).
  split_and!; [exact Hret | exact Htrace | apply Hsame; reflexivity].
Defined.

Lemma RunCommand_result_nonempty_witness :
  (RunCommand "kubectl" ["get"; "pods"] samples.broken []).1 = [""].
Proof.
  apply (RunCommand_result_nonempty "kubectl" ["get"; "pods"]
           samples.broken []). reflexivity.
Defined.

(** A successful run: two lines of output, nothing printed. *)
Example RunCommand_healthy :
  RunCommand "kubectl" ["get"; "pods"] samples.healthy []
  = (["pod-a"; "pod-b"], [Exec "kubectl" ["get"; "pods"]]).
Proof. reflexivity. Qed.

(** [RawK8sOutput] runs kubectl on the assembled arguments. *)
Example RawK8sOutput_healthy :
  (RawK8sOutput "ns1" "ctx1" "app=x" ["get"; "pods"] samples.healthy []).2
  = [Exec "kubectl" ["get"; "pods"; "--namespace=ns1"; "--context=ctx1";
                     "--selector=app=x"]].
Proof. reflexivity. Qed.

(** ** White space trimming on ASCII text *)
Section TrimSpaceAscii.
Context `{gostrings.UnicodeTrim}.
Implicit Types (s l r core : string) (c : ascii) (P : ascii → Prop).

Lemma app_nil_r_string s : s +:+ "" = s.
Proof. induction s as [|c s IH]; [done|]. unfold String.app in *; simpl. by rewrite IH. Qed.

Lemma app_assoc_string s1 s2 s3 : (s1 +:+ s2) +:+ s3 = s1 +:+ (s2 +:+ s3).
Proof.
  induction s1 as [|c s1 IH]; [done|].
  unfold String.app in *; simpl. by rewrite IH.
Qed.

Lemma rev_app_eq s1 s2 : String.rev_app s1 s2 = String.rev s1 +:+ s2.
Proof.
  unfold String.rev. revert s2.
  induction s1 as [|c s1 IH]; intros s2; simpl; [done|].
  rewrite (IH (String c s2)), (IH (String c "")).
  by rewrite app_assoc_string.
Qed.

Lemma rev_cons c s : String.rev (String c s) = String.rev s +:+ String c "".
Proof. unfold String.rev at 1. simpl. apply rev_app_eq. Qed.

Lemma rev_app_distr s1 s2 :
  String.rev (s1 +:+ s2) = String.rev s2 +:+ String.rev s1.
Proof.
  induction s1 as [|c s1 IH].
  - by rewrite app_nil_r_string.
  - change (String c s1 +:+ s2) with (String c (s1 +:+ s2)).
    by rewrite !rev_cons, IH, app_assoc_string.
Qed.

Lemma rev_involutive s : String.rev (String.rev s) = s.
Proof.
  induction s as [|c s IH]; [done|].
  by rewrite rev_cons, rev_app_distr, IH.
Qed.

Lemma string_forall_app P s1 s2 :
  string_forall P (s1 +:+ s2) ↔ string_forall P s1 ∧ string_forall P s2.
Proof.
  induction s1 as [|c s1 IH].
  - change ("" +:+ s2) with s2. simpl. tauto.
  - change (String c s1 +:+ s2) with (String c (s1 +:+ s2)). simpl. tauto.
Qed.

Lemma string_forall_rev P s : string_forall P (String.rev s) ↔ string_forall P s.
Proof.
  induction s as [|c s IH]; [done|].
  rewrite rev_cons, string_forall_app. simpl. tauto.
Qed.

(** The loop from the end: it drops a run of white space and stops at
    the first byte that is not. *)
Lemma trim_stop_ascii s :
  is_ascii s →
  ∃ sp core, s = sp +:+ core ∧ all_space sp
             ∧ gostrings.trim_stop s = String.rev core
             ∧ ∀ c rest, core = String c rest → gostrings.asciiSpace c = false.
Proof.
  unfold is_ascii, all_space.
  induction s as [|c s IH]; intros Hascii.
  - by exists "", "".
  - destruct Hascii as [Hc Hascii]. simpl.
    rewrite decide_False by lia.
    destruct (gostrings.asciiSpace c) eqn:Hsp.
    + destruct (IH Hascii) as (sp & core & -> & Hspace & Hstop & Hfirst).
      by exists (String c sp), core.
    + exists "", (String c s). split_and!; [done..|].
      by intros ?? [= <- <-].
Qed.

(** On ASCII text [TrimSpace] removes a run of white space at each end,
    and what it returns neither starts nor ends with white space. *)
Lemma TrimSpace_ascii s :
  is_ascii s →
  ∃ l r, s = l +:+ gostrings.TrimSpace s +:+ r
         ∧ all_space l ∧ all_space r
         ∧ (∀ c rest, gostrings.TrimSpace s = String c rest →
                      gostrings.asciiSpace c = false)
         ∧ (∀ body c, gostrings.TrimSpace s = body +:+ String c "" →
                      gostrings.asciiSpace c = false).
Proof.
  unfold gostrings.TrimSpace.
  induction s as [|c s IH]; intros Hascii.
  - exists "", "". split_and!; [done..| |].
    + by intros ??.
    + intros [|??] ? [=].
  - pose proof Hascii as [Hc Hrest]. simpl.
    rewrite decide_False by lia.
    destruct (gostrings.asciiSpace c) eqn:Hsp.
    + destruct (IH Hrest) as (l & r & Heq & Hl & Hr & Hfirst & Hlast).
      exists (String c l), r. split_and!; [|done..].
      change (String c l +:+ gostrings.trim_start s +:+ r)
        with (String c (l +:+ gostrings.trim_start s +:+ r)).
      by rewrite <- Heq.
    + destruct (trim_stop_ascii (String.rev (String c s)))
        as (sp & core & Hrev & Hspace & Hstop & Hfirst).
      { by apply string_forall_rev. }
      rewrite Hstop.
      assert (String c s = String.rev core +:+ String.rev sp) as Hs.
      { by rewrite <- rev_app_distr, <- Hrev, rev_involutive. }
      exists "", (String.rev sp). split_and!.
      * done.
      * done.
      * by apply string_forall_rev.
      * intros c' rest Hcore. rewrite Hcore in Hs.
        by injection Hs as <- _.
      * intros body c' Hcore.
        apply (f_equal String.rev) in Hcore.
        rewrite rev_involutive, rev_app_distr in Hcore.
        by apply (Hfirst c' (String.rev body)).
Qed.

End TrimSpaceAscii.

(** ** Quote and space trimming *)
Section Trimming.
Context `{gostrings.UnicodeTrim}.
Implicit Types (input body s : string) (q c : ascii).

Lemma len_app_byte body q :
  gostrings.len (body +:+ String q "") = S (gostrings.len body).
Proof. induction body as [|c body IH]; simpl; [done|]. by rewrite IH. Qed.

Lemma index_app_last body q :
  gostrings.index (body +:+ String q "") (gostrings.len body) = Some q.
Proof. unfold gostrings.index. induction body as [|c body IH]; by simpl. Qed.

Lemma slice_app_prefix body s :
  gostrings.slice (body +:+ s) 0 (gostrings.len body) = body.
Proof.
  unfold gostrings.slice. rewrite Nat.sub_0_r.
  induction body as [|c body IH]; simpl; [by destruct s|]. by rewrite IH.
Qed.

(** A string whose last byte is [q] ends in [q]. *)
Lemma index_last_inv s q :
  gostrings.index s (gostrings.len s - 1) = Some q →
  ∃ body, s = body +:+ String q "".
Proof.
  unfold gostrings.index.
  induction s as [|c [|c' rest] IH]; simpl; [done|..].
  - intros [= ->]. by exists "".
  - intros Hget. destruct IH as [body ->].
    + simpl. by rewrite Nat.sub_0_r.
    + by exists (String c body).
Qed.

(** The test of lines 153-154 and 157, read on the shape of the string. *)
Lemma quoted_iff input q :
  (2 ≤ gostrings.len input
   ∧ gostrings.index input 0 = Some q
   ∧ gostrings.index input (gostrings.len input - 1) = Some q)
  ↔ ∃ body, input = String q (body +:+ String q "").
Proof.
  split.
  - intros (Hlen & Hfirst & Hlast).
    destruct input as [|c [|c' rest]]; simpl in Hlen; [lia..|].
    injection Hfirst as ->.
    destruct (index_last_inv (String c' rest) q) as [body Hbody].
    + simpl in Hlast |- *. by rewrite Nat.sub_0_r in *.
    + exists body. by rewrite Hbody.
  - intros [body ->]. simpl. rewrite len_app_byte. split_and!; [lia|done|].
    unfold gostrings.index; simpl. rewrite ?Nat.sub_0_r.
    apply (index_app_last body q).
Qed.

Lemma slice_quoted body q :
  let input := String q (body +:+ String q "") in
  gostrings.slice input 1 (gostrings.len input - 1) = body.
Proof.
  simpl. rewrite len_app_byte, Nat.sub_0_r.
  pose proof (slice_app_prefix body (String q "")) as Hs.
  unfold gostrings.slice in *. simpl.
  replace (S (gostrings.len body) - 1) with (gostrings.len body - 0) by lia.
  done.
Qed.

(** C5: an input that opens and closes with a double quote, or opens and
    closes with a single quote (so of length at least two) loses exactly
    that outer pair; every other input is returned with its surrounding
    white space trimmed, that is as [strings.TrimSpace] returns it, in
    particular every input shorter than two bytes.  On ASCII text this
    means that a run of white space is removed at each end and that the
    result neither starts nor ends with white space.  The three examples
    of the specification hold. *)
Theorem TrimQuoteAndSpace_spec input :
  (∀ q body, q = DQUOTE ∨ q = SQUOTE →
     input = String q (body +:+ String q "") →
     TrimQuoteAndSpace input = body)
  ∧ ((∀ q body, q = DQUOTE ∨ q = SQUOTE →
        input ≠ String q (body +:+ String q "")) →
     TrimQuoteAndSpace input = gostrings.TrimSpace input)
  ∧ (gostrings.len input ≤ 1 →
     TrimQuoteAndSpace input = gostrings.TrimSpace input)
  ∧ (is_ascii input →
     (∀ q body, q = DQUOTE ∨ q = SQUOTE →
        input ≠ String q (body +:+ String q "")) →
     ∃ l r, input = l +:+ TrimQuoteAndSpace input +:+ r
            ∧ all_space l ∧ all_space r
            ∧ (∀ c rest, TrimQuoteAndSpace input = String c rest →
                         gostrings.asciiSpace c = false)
            ∧ (∀ body c, TrimQuoteAndSpace input = body +:+ String c "" →
                         gostrings.asciiSpace c = false))
  ∧ TrimQuoteAndSpace "'abc'" = "abc"
  ∧ TrimQuoteAndSpace (String DQUOTE ("abc" +:+ String DQUOTE "")) = "abc"
  ∧ TrimQuoteAndSpace "  abc  " = "abc".
Proof.
  assert ((∀ q body, q = DQUOTE ∨ q = SQUOTE →
             input ≠ String q (body +:+ String q "")) →
          TrimQuoteAndSpace input = gostrings.TrimSpace input) as Hother.
  { intros Hshape. unfold TrimQuoteAndSpace.
    case_decide as Hlen; [|done].
    rewrite !decide_False; [done|..].
    - intros [Hfirst Hlast].
      destruct (proj1 (quoted_iff input SQUOTE)) as [body ->]; [done|].
      by eapply (Hshape SQUOTE body); [right|].
    - intros [Hfirst Hlast].
      destruct (proj1 (quoted_iff input DQUOTE)) as [body ->]; [done|].
      by eapply (Hshape DQUOTE body); [left|]. }
  split_and!; [|exact Hother| | |reflexivity..].
  - intros q body Hq ->. unfold TrimQuoteAndSpace.
    pose proof (proj2 (quoted_iff (String q (body +:+ String q "")) q)
                  (ex_intro _ body eq_refl)) as (Hlen & Hfirst & Hlast).
    rewrite decide_True by done.
    destruct Hq as [-> | ->].
    + rewrite decide_True by done. apply slice_quoted.
    + rewrite decide_False by (by intros [[=] _]).
      rewrite decide_True by done. apply slice_quoted.
  - intros Hlen. unfold TrimQuoteAndSpace. rewrite decide_False by lia. done.
  - intros Hascii Hshape. rewrite (Hother Hshape).
    by apply TrimSpace_ascii.
Qed.

End Trimming.

Lemma TrimQuoteAndSpace_spec_witness :
  @TrimQuoteAndSpace samples.ascii_only "'it is'" = "it is"
  ∧ @TrimQuoteAndSpace samples.ascii_only " 'abc' " = "'abc'"
  ∧ @TrimQuoteAndSpace samples.ascii_only "'" = "'".
Proof.
  split_and!.
  - apply (proj1 (@TrimQuoteAndSpace_spec samples.ascii_only "'it is'")
             SQUOTE "it is"); [by right | reflexivity].
  - rewrite (proj1 (proj2 (@TrimQuoteAndSpace_spec samples.ascii_only
                             " 'abc' "))); [reflexivity|].
    intros q body [-> | ->]; discriminate.
  - rewrite (proj1 (proj2 (proj2 (@TrimQuoteAndSpace_spec samples.ascii_only
                                    "'")))); [reflexivity | simpl; lia].
Defined.

(** ** The map join *)
Section Keys.
Implicit Types (m : gmap string string) (visit : list (string * string)).

(** The loop of [KeysString] collects the rendered entries in the order
    of the iteration. *)
Lemma KeysString_keys (acc : list string) visit :
  foldl KeysString_step acc visit = acc ++ (pair_string <$> visit).
Proof.
  revert acc. induction visit as [|kv visit IH]; intros acc; simpl.
  - by rewrite app_nil_r.
  - rewrite IH. unfold append, pair_string. by rewrite <- app_assoc.
Qed.

Lemma KeysString_visiting_eq visit :
  KeysString_visiting visit = gostrings.Join (pair_string <$> visit) ",".
Proof. unfold KeysString_visiting. by rewrite KeysString_keys. Qed.

(** C7: [KeysString] returns, and what it returns is the key=value
    renderings of the entries of the map, one for each entry, in some
    order, joined by commas; on the map with the one entry a to 1 it
    returns exactly a=1. *)
Theorem KeysString_pairs m :
  (∃ s, KeysString m s)
  ∧ (∀ s, KeysString m s →
       ∃ pairs, pairs ≡ₚ pair_string <$> map_to_list m
                ∧ length pairs = size m
                ∧ s = gostrings.Join pairs ",")
  ∧ (∀ s, KeysString {["a" := "1"]} s ↔ s = "a=1").
Proof.
  split_and!.
  - exists (KeysString_visiting (map_to_list m)).
    constructor. by unfold range_order.
  - intros s [visit Hvisit]. exists (pair_string <$> visit). split_and!.
    + by apply fmap_Permutation.
    + rewrite length_fmap, Hvisit. by rewrite length_map_to_list.
    + apply KeysString_visiting_eq.
  - intros s. split.
    + intros [visit Hvisit]. unfold range_order in Hvisit.
      rewrite map_to_list_singleton in Hvisit.
      by apply Permutation_singleton_r in Hvisit as ->.
    + intros ->. apply (KeysString_intro _ [("a", "1")]).
      unfold range_order. by rewrite map_to_list_singleton.
Qed.

End Keys.

Lemma KeysString_pairs_witness :
  ∃ pairs, pairs ≡ₚ pair_string <$> map_to_list {["a" := "1"; "b" := "2"]}
           ∧ length pairs = size ({["a" := "1"; "b" := "2"]} : gmap string string)
           ∧ "b=2,a=1" = gostrings.Join pairs ",".
Proof.
  apply (proj1 (proj2 (KeysString_pairs {["a" := "1"; "b" := "2"]}))).
  apply (KeysString_intro _ [("b", "2"); ("a", "1")]).
  unfold range_order. vm_compute. apply perm_swap.
Defined.

(** Both orders of a map with two entries are possible results. *)
Example KeysString_two_orders :
  KeysString {["a" := "1"; "b" := "2"]} "a=1,b=2"
  ∧ KeysString {["a" := "1"; "b" := "2"]} "b=2,a=1".
Proof.
  split.
  - apply (KeysString_intro _ [("a", "1"); ("b", "2")]).
    unfold range_order. vm_compute. apply perm_swap || reflexivity.
  - apply (KeysString_intro _ [("b", "2"); ("a", "1")]).
    unfold range_order. vm_compute. apply perm_swap || reflexivity.
Qed.

(** * Further properties *)

(** ** The option resolver, continued *)
Section ResolverEffects.
Context {ListOf : NamespacedKind → Type} {NodeListT : Type}.
Implicit Types (w : @World ListOf NodeListT) (t : list Event).
Implicit Types (opt : options.SearchOptions).

Lemma printed_app t1 t2 : printed (t1 ++ t2) = printed t1 ++ printed t2.
Proof. apply List.filter_app. Qed.

Lemma lookups_app t1 t2 : lookups (t1 ++ t2) = lookups t1 ++ lookups t2.
Proof. apply List.filter_app. Qed.

Lemma debug_entries_app t1 t2 :
  debug_entries (t1 ++ t2) = debug_entries t1 ++ debug_entries t2.
Proof. apply List.filter_app. Qed.

(** The events [SetOptions] adds to the trace. *)
Lemma SetOptions_trace w t opt :
  (SetOptions opt w t).2 =
    t ++ (if options.AllNamespaces opt then []
          else if decide (options.Namespace opt = "") then
            ConfigNamespace ::
              (if (config_namespace w).2 is Some e
               then [LogDebug "Failed to resolve namespace" e] else [])
          else []).
Proof.
  rewrite SetOptions_unfold.
  destruct (options.AllNamespaces opt); simpl; [by rewrite app_nil_r|].
  case_decide; simpl; [|by rewrite app_nil_r].
  by destruct (config_namespace w) as [[ns ov] [e|]].
Qed.

(** X1: [SetOptions] consults the kubeconfig exactly when AllNamespaces
    is unset and Namespace is empty, and then once; with AllNamespaces set
    or a namespace given it leaves the trace as it found it. *)
Theorem SetOptions_lookup_only_when_needed w t opt :
  lookups (SetOptions opt w t).2
    = lookups t ++
        (if decide (options.AllNamespaces opt = false
                    ∧ options.Namespace opt = "")
         then [ConfigNamespace] else [])
  ∧ (options.AllNamespaces opt = true ∨ options.Namespace opt ≠ "" →
     (SetOptions opt w t).2 = t).
Proof.
  rewrite SetOptions_trace. split.
  - rewrite lookups_app. f_equal.
    destruct (options.AllNamespaces opt);
      repeat case_decide; try done; try (exfalso; intuition congruence).
    by destruct (config_namespace w).2.
  - intros [-> | Hns]; [by rewrite app_nil_r|].
    destruct (options.AllNamespaces opt); [by rewrite app_nil_r|].
    rewrite decide_False by done. by rewrite app_nil_r.
Qed.

(** X2: whatever branch [SetOptions] takes, the list options it returns
    are the two selectors of the search options, it makes no call to the
    cluster API and prints nothing, and it writes a debug entry only
    when the kubeconfig lookup it made has failed. *)
Theorem SetOptions_frame_effects w t opt :
  (SetOptions opt w t).1.2
    = {| metav1.LabelSelector := options.Selector opt;
         metav1.FieldSelector := options.FieldSelector opt |}
  ∧ api_calls (SetOptions opt w t).2 = api_calls t
  ∧ printed (SetOptions opt w t).2 = printed t
  ∧ (debug_entries (SetOptions opt w t).2 ≠ debug_entries t →
     lookups (SetOptions opt w t).2 = lookups t ++ [ConfigNamespace]
     ∧ (config_namespace w).2 ≠ None).
Proof.
  destruct (SetOptions_frame w t opt) as [Ho Hcalls].
  split_and!; [done..| |]; rewrite SetOptions_trace.
  - rewrite printed_app.
    destruct (options.AllNamespaces opt); simpl; [by rewrite app_nil_r|].
    case_decide; simpl; [|by rewrite app_nil_r].
    destruct (config_namespace w).2; by rewrite app_nil_r.
  - rewrite debug_entries_app, lookups_app.
    destruct (options.AllNamespaces opt); simpl;
      [by rewrite app_nil_r|].
    case_decide; simpl; [|by rewrite app_nil_r].
    destruct (config_namespace w).2; [done|].
    by rewrite app_nil_r.
Qed.

(** X3: the namespace [SetOptions] resolves is empty, which the client
    reads as all namespaces, exactly when AllNamespaces is set or when
    Namespace is empty and the kubeconfig lookup succeeded with the
    empty namespace. *)
Theorem SetOptions_empty_namespace_iff w t opt :
  (SetOptions opt w t).1.1 = ""
  ↔ options.AllNamespaces opt = true
    ∨ (options.AllNamespaces opt = false ∧ options.Namespace opt = ""
       ∧ (config_namespace w).1.1 = "" ∧ (config_namespace w).2 = None).
Proof.
  rewrite SetOptions_unfold.
  destruct (options.AllNamespaces opt); simpl; [intuition congruence|].
  case_decide as Hns.
  - destruct (config_namespace w) as [[ns ov] [e|]]; simpl;
      intuition congruence.
  - simpl. intuition congruence.
Qed.


End ResolverEffects.

Lemma SetOptions_lookup_only_when_needed_witness :
  (SetOptions (samples.opts "kube-system" false) samples.broken []).2 = [].
Proof.
  apply (proj2 (SetOptions_lookup_only_when_needed samples.broken []
                  (samples.opts "kube-system" false))).
  right. discriminate.
Defined.

Lemma SetOptions_frame_effects_witness :
  lookups (SetOptions (samples.opts "" false) samples.broken []).2
    = [ConfigNamespace]
  ∧ (config_namespace samples.broken).2 ≠ None.
Proof.
  apply (proj2 (proj2 (proj2 (SetOptions_frame_effects samples.broken []
                                (samples.opts "" false))))).
  discriminate.
Defined.


(** ** The listers, continued *)
Section ListerEffects.
Context {ListOf : NamespacedKind → Type} {NodeListT : Type}.
Implicit Types (w : @World ListOf NodeListT) (t : list Event).
Implicit Types (opt : options.SearchOptions) (k : NamespacedKind).

Lemma SetOptions_printed w t opt : printed (SetOptions opt w t).2 = printed t.
Proof.
  rewrite SetOptions_trace, printed_app.
  destruct (options.AllNamespaces opt); simpl; [by rewrite app_nil_r|].
  case_decide; simpl; [|by rewrite app_nil_r].
  destruct (config_namespace w).2; by rewrite app_nil_r.
Qed.

(** A namespaced lister in one step. *)
Lemma list_in_namespace_unfold k msg w t opt :
  list_in_namespace k msg opt w t
  = let ns := (SetOptions opt w t).1.1 in
    let answer := list_namespaced w k ns (listOptions_of opt) in
    (answer.1,
     (SetOptions opt w t).2 ++
       ListNamespaced k ns (listOptions_of opt) ::
         (if answer.2 is Some e then [LogDebug msg e] else [])).
Proof.
  destruct (SetOptions_frame w t opt) as [Ho _].
  unfold list_in_namespace, clientset_List, emit, ask.
  rewrite !bind_run.
  destruct (SetOptions opt w t) as [[ns o] t'].
  simpl in Ho. subst o. rewrite !bind_run. simpl.
  destruct (list_namespaced w k ns (listOptions_of opt)) as [list err].
  rewrite bind_run, debug_if_err_run. simpl.
  by rewrite <- app_assoc.
Qed.

(** [NodeList] in one step. *)
Lemma NodeList_unfold w t opt :
  NodeList opt w t
  = let answer := list_nodes w (listOptions_of opt) in
    (answer.1,
     (SetOptions opt w t).2 ++
       ListNodes (listOptions_of opt) ::
         (if answer.2 is Some e
          then [LogDebug "Unable to get Node List" e] else [])).
Proof.
  destruct (SetOptions_frame w t opt) as [Ho _].
  unfold NodeList, clientset_Nodes_List, emit, ask.
  rewrite !bind_run.
  destruct (SetOptions opt w t) as [[ns o] t'].
  simpl in Ho. subst o. rewrite !bind_run. simpl.
  destruct (list_nodes w (listOptions_of opt)) as [list err].
  rewrite bind_run, debug_if_err_run. simpl.
  by rewrite <- app_assoc.
Qed.

Lemma list_in_namespace_lists_kind k msg :
  @lists_kind ListOf NodeListT k (list_in_namespace k msg).
Proof. intros opt w t. apply list_in_namespace_run. Qed.

Lemma list_in_namespace_swallows_error k msg :
  @swallows_error ListOf NodeListT k msg (list_in_namespace k msg).
Proof.
  intros opt w t. rewrite list_in_namespace_unfold. simpl. split_and!.
  - done.
  - rewrite printed_app, SetOptions_printed.
    destruct (list_namespaced _ _ _ _).2; simpl; by rewrite app_nil_r.
  - rewrite debug_entries_app. f_equal.
    by destruct (list_namespaced _ _ _ _).2.
Qed.

(** X5: each of the seven namespaced listers makes exactly one call to
    the cluster API, to the list endpoint of its own kind, and passes it
    the namespace the resolver gave and the list options built from the
    two selectors. *)
Theorem listers_call_their_endpoint :
  @lists_kind ListOf NodeListT DaemonSets DaemonsetList
  ∧ @lists_kind ListOf NodeListT Deployments DeploymentList
  ∧ @lists_kind ListOf NodeListT Pods PodList
  ∧ @lists_kind ListOf NodeListT ConfigMaps ConfigMapList
  ∧ @lists_kind ListOf NodeListT Secrets SecretList
  ∧ @lists_kind ListOf NodeListT StatefulSets StatefulSetList
  ∧ @lists_kind ListOf NodeListT Services ServiceList.
Proof. split_and!; apply list_in_namespace_lists_kind. Qed.

(** X6: each of the seven namespaced listers returns the value the
    client returned whether or not the call failed, prints nothing, and
    marks a failure only by one debug entry that carries its own
    message and the text of the error. *)
Theorem listers_swallow_errors :
  @swallows_error ListOf NodeListT
    DaemonSets "Unable to get DaemonSet List" DaemonsetList
  ∧ @swallows_error ListOf NodeListT
      Deployments "Unable to get Deployment List" DeploymentList
  ∧ @swallows_error ListOf NodeListT
      Pods "Unable to get Pod List" PodList
  ∧ @swallows_error ListOf NodeListT
      ConfigMaps "Unable to get ConfigMap List" ConfigMapList
  ∧ @swallows_error ListOf NodeListT
      Secrets "Unable to get Secret List" SecretList
  ∧ @swallows_error ListOf NodeListT
      StatefulSets "Unable to get .StatefulSet List" StatefulSetList
  ∧ @swallows_error ListOf NodeListT
      Services "Unable to get .Services List" ServiceList.
Proof. split_and!; apply list_in_namespace_swallows_error. Qed.

(** X7: [NodeList] throws the resolved namespace away but still runs the
    resolver: its trace is the resolver's, kubeconfig lookup and debug
    entry included, followed by the listing of nodes and, when that
    failed, by one debug entry; it returns what the client returned and
    prints nothing. *)
Theorem NodeList_runs_resolver w t opt :
  (NodeList opt w t).1 = (list_nodes w (listOptions_of opt)).1
  ∧ (NodeList opt w t).2
    = (SetOptions opt w t).2 ++
        ListNodes (listOptions_of opt) ::
          (if (list_nodes w (listOptions_of opt)).2 is Some e
           then [LogDebug "Unable to get Node List" e] else [])
  ∧ lookups (NodeList opt w t).2 = lookups (SetOptions opt w t).2
  ∧ printed (NodeList opt w t).2 = printed t.
Proof.
  rewrite NodeList_unfold. simpl. split_and!; [done..| |].
  - rewrite lookups_app.
    destruct (list_nodes _ _).2; simpl; by rewrite app_nil_r.
  - rewrite printed_app, SetOptions_printed.
    destruct (list_nodes _ _).2; simpl; by rewrite app_nil_r.
Qed.

End ListerEffects.

(** A lister against a cluster that refuses the connection, with no
    namespace given and no kubeconfig: two debug entries, the empty
    list, nothing else. *)
Example SecretList_broken :
  SecretList (samples.opts "" false) samples.broken []
  = ([], [ConfigNamespace;
          LogDebug "Failed to resolve namespace" "invalid configuration";
          ListNamespaced Secrets "default"
            (listOptions_of (samples.opts "" false));
          LogDebug "Unable to get Secret List" "connection refused"]).
Proof. reflexivity. Qed.

(** [NodeList] with no namespace given looks the kubeconfig up. *)
Example NodeList_looks_up :
  (NodeList (samples.opts "" false) samples.healthy []).2
  = [ConfigNamespace; ListNodes (listOptions_of (samples.opts "" false))].
Proof. reflexivity. Qed.

(** ** The command runner, continued *)
Section RunnerLines.
Context {ListOf : NamespacedKind → Type} {NodeListT : Type}.
Implicit Types (w : @World ListOf NodeListT) (t : list Event).
Implicit Types (name s a b : string) (args : list string) (sep : ascii).

Lemma Split_length s sep :
  length (gostrings.Split s sep) = S (count_byte sep s).
Proof.
  induction s as [|c s IH]; simpl; [done|].
  case_decide; simpl; [by rewrite IH|].
  pose proof (Split_nonempty s sep).
  destruct (gostrings.Split s sep); [done|]. simpl in *. lia.
Qed.

Lemma Split_free s sep : free_of sep s → gostrings.Split s sep = [s].
Proof.
  unfold free_of. induction s as [|c s IH]; simpl; [done|].
  intros [Hc Hs]. rewrite decide_False by done. by rewrite IH.
Qed.

Lemma Split_all_free s sep : Forall (free_of sep) (gostrings.Split s sep).
Proof.
  unfold free_of. induction s as [|c s IH]; simpl.
  - by repeat constructor.
  - case_decide as Hc; [by constructor|].
    destruct (gostrings.Split s sep) as [|p ps]; [by repeat constructor|].
    inversion IH; subst. by constructor.
Qed.

(** Splitting distributes over a separator in the middle. *)
Lemma Split_app a b sep :
  gostrings.Split (a +:+ String sep b) sep
  = gostrings.Split a sep ++ gostrings.Split b sep.
Proof.
  induction a as [|c a IH].
  - change ("" +:+ String sep b) with (String sep b). simpl.
    by rewrite decide_True.
  - change (String c a +:+ String sep b) with (String c (a +:+ String sep b)).
    simpl. rewrite IH. case_decide; [done|].
    pose proof (Split_nonempty a sep).
    by destruct (gostrings.Split a sep).
Qed.

(** X8: the lines [RunCommand] returns lose nothing of the output:
    joined again with newlines they are the combined output of the
    command, byte for byte. *)
Theorem RunCommand_lines_rejoin name args w t :
  gostrings.Join (RunCommand name args w t).1 (String LF "")
  = (combined_output w name args).1.
Proof. rewrite RunCommand_run. apply Join_Split. Qed.

(** X9: [RunCommand] returns one line more than the output holds
    newline bytes, no returned line holds a newline, and an output with
    no newline in it comes back as the single line. *)
Theorem RunCommand_line_count name args w t :
  length (RunCommand name args w t).1
    = S (count_byte LF (combined_output w name args).1)
  ∧ Forall (free_of LF) (RunCommand name args w t).1
  ∧ (free_of LF (combined_output w name args).1 →
     (RunCommand name args w t).1 = [(combined_output w name args).1]).
Proof.
  rewrite RunCommand_run. simpl. split_and!.
  - apply Split_length.
  - apply Split_all_free.
  - apply Split_free.
Qed.

(** X10: the lines of an output with a newline in it are the lines of
    what stands before the newline followed by the lines of what stands
    after it; so an output that ends in a newline, as the output of
    kubectl does, gives the empty string as last line. *)
Theorem RunCommand_trailing_newline name args w t :
  (∀ a b, (combined_output w name args).1 = a +:+ String LF b →
     (RunCommand name args w t).1
     = gostrings.Split a LF ++ gostrings.Split b LF)
  ∧ (∀ body, (combined_output w name args).1 = body +:+ String LF "" →
       last (RunCommand name args w t).1 = Some ""
       ∧ length (RunCommand name args w t).1
         = S (length (gostrings.Split body LF))).
Proof.
  rewrite RunCommand_run. simpl. split.
  - intros a b ->. apply Split_app.
  - intros body ->. rewrite Split_app. simpl.
    rewrite last_snoc, length_app. simpl. split; [done|lia].
Qed.

(** X11: [RawK8sOutput] runs one command, kubectl, on the caller's
    arguments followed by the flags of the non-empty inputs, returns the
    lines of its output, never the empty list, and on failure prints the
    diagnostic that names kubectl and those arguments. *)
Theorem RawK8sOutput_runs_kubectl namespace context labels args w t :
  let cmdArgs :=
    args ++ flag "--namespace=" namespace ++ flag "--context=" context
         ++ flag "--selector=" labels in
  let answer := combined_output w "kubectl" cmdArgs in
  (RawK8sOutput namespace context labels args w t).1
    = gostrings.Split answer.1 LF
  ∧ (RawK8sOutput namespace context labels args w t).1 ≠ []
  ∧ (RawK8sOutput namespace context labels args w t).2
    = t ++ Exec "kubectl" cmdArgs ::
        (if answer.2 is Some _
         then [Stdout (diagnostic "kubectl" cmdArgs)] else []).
Proof.
  simpl. unfold RawK8sOutput.
  rewrite K8sCommandArgs_unfold, RunCommand_run. simpl.
  split_and!; [done| |done]. apply Split_nonempty.
Qed.

End RunnerLines.

Lemma RunCommand_line_count_witness :
  (RunCommand "kubectl" ["version"] samples.silent []).1 = [""].
Proof.
  apply (proj2 (proj2 (RunCommand_line_count "kubectl" ["version"]
                         samples.silent []))).
  exact I.
Defined.

Lemma RunCommand_trailing_newline_witness :
  (RunCommand "kubectl" ["get"; "pods"] samples.healthy []).1
  = gostrings.Split "pod-a" LF ++ gostrings.Split "pod-b" LF.
Proof.
  apply (proj1 (RunCommand_trailing_newline "kubectl" ["get"; "pods"]
                  samples.healthy [])).
  reflexivity.
Defined.

(** kubectl is missing: the caller gets one empty line and sees the
    diagnostic on standard output. *)
Example RawK8sOutput_broken :
  RawK8sOutput "ns1" "" "" ["get"; "pods"] samples.broken []
  = ([""],
     [Exec "kubectl" ["get"; "pods"; "--namespace=ns1"];
      Stdout ("error running command: kubectl [get pods --namespace=ns1]"
              +:+ String LF "")]).
Proof. reflexivity. Qed.

(** ** Quote and space trimming, continued *)
Section TrimmingEdges.
Context `{gostrings.UnicodeTrim}.
Implicit Types (input body core l r s x : string) (q c : ascii).

Lemma asciiSpace_below_RuneSelf c :
  gostrings.asciiSpace c = true → (nat_of_ascii c < gostrings.RuneSelf)%nat.
Proof.
  unfold gostrings.asciiSpace, gostrings.RuneSelf.
  intros Hc%bool_decide_eq_true. lia.
Qed.

Lemma quote_not_space q :
  q = DQUOTE ∨ q = SQUOTE →
  gostrings.asciiSpace q = false ∧ (nat_of_ascii q < gostrings.RuneSelf)%nat.
Proof. intros [-> | ->]; split; (reflexivity || (vm_compute; lia)). Qed.

Lemma string_app_cons c s x : String c s +:+ x = String c (s +:+ x).
Proof. reflexivity. Qed.

Lemma trim_start_skip l x :
  all_space l → gostrings.trim_start (l +:+ x) = gostrings.trim_start x.
Proof.
  unfold all_space. induction l as [|c l IH]; [done|].
  intros [Hc Hl]. rewrite string_app_cons. simpl.
  rewrite decide_False by (apply asciiSpace_below_RuneSelf in Hc; lia).
  rewrite Hc. by apply IH.
Qed.

Lemma trim_stop_skip l x :
  all_space l → gostrings.trim_stop (l +:+ x) = gostrings.trim_stop x.
Proof.
  unfold all_space. induction l as [|c l IH]; [done|].
  intros [Hc Hl]. rewrite string_app_cons. simpl.
  rewrite decide_False by (apply asciiSpace_below_RuneSelf in Hc; lia).
  rewrite Hc. by apply IH.
Qed.

Lemma trim_start_all_space l : all_space l → gostrings.trim_start l = "".
Proof.
  intros Hl. rewrite <- (app_nil_r_string l).
  by rewrite trim_start_skip.
Qed.

(** White space around a text that starts and ends with a byte that is
    ASCII and not white space is all that [TrimSpace] removes; the bytes
    in between are not looked at. *)
Lemma TrimSpace_core l core r a b rest rest' :
  all_space l → all_space r →
  core = String a rest → String.rev core = String b rest' →
  gostrings.asciiSpace a = false → (nat_of_ascii a < gostrings.RuneSelf)%nat →
  gostrings.asciiSpace b = false → (nat_of_ascii b < gostrings.RuneSelf)%nat →
  gostrings.TrimSpace (l +:+ core +:+ r) = core.
Proof.
  intros Hl Hr Hcore Hrev Ha Ha' Hb Hb'.
  unfold gostrings.TrimSpace. rewrite trim_start_skip by done.
  assert (gostrings.trim_start (core +:+ r)
          = gostrings.trim_stop (String.rev (core +:+ r))) as ->.
  { rewrite Hcore, string_app_cons. simpl.
    rewrite decide_False by lia. by rewrite Ha. }
  rewrite rev_app_distr, trim_stop_skip by (by apply string_forall_rev).
  rewrite Hrev. simpl. rewrite decide_False by lia. rewrite Hb.
  by rewrite <- Hrev, rev_involutive.
Qed.

Lemma rev_quoted q body :
  String.rev (String q (body +:+ String q ""))
  = String q (String.rev body +:+ String q "").
Proof. by rewrite rev_cons, rev_app_distr. Qed.

(** An input without the shape of a quoted string goes to [TrimSpace]. *)
Lemma TrimQuoteAndSpace_unquoted input :
  (∀ q body, q = DQUOTE ∨ q = SQUOTE →
     input ≠ String q (body +:+ String q "")) →
  TrimQuoteAndSpace input = gostrings.TrimSpace input.
Proof.
  intros Hshape. unfold TrimQuoteAndSpace.
  case_decide as Hlen; [|done].
  rewrite !decide_False; [done|..]; intros [Hfirst Hlast].
  - destruct (proj1 (quoted_iff input SQUOTE)) as [body ->]; [done|].
    by eapply (Hshape SQUOTE body); [right|].
  - destruct (proj1 (quoted_iff input DQUOTE)) as [body ->]; [done|].
    by eapply (Hshape DQUOTE body); [left|].
Qed.

(** X12: quotes are removed only when they are the very first and the
    very last byte.  A quoted text with white space before or after it
    comes back with the white space trimmed and both quotes still in
    place, whatever bytes stand between the quotes. *)
Theorem TrimQuoteAndSpace_space_protects_quotes l r q body :
  q = DQUOTE ∨ q = SQUOTE →
  all_space l → all_space r → l ≠ "" ∨ r ≠ "" →
  TrimQuoteAndSpace (l +:+ String q (body +:+ String q "") +:+ r)
  = String q (body +:+ String q "").
Proof.
  intros Hq Hl Hr Hpad.
  destruct (quote_not_space q Hq) as [Hqs Hqa].
  rewrite TrimQuoteAndSpace_unquoted.
  - apply (TrimSpace_core l _ r q q (body +:+ String q "")
             (String.rev body +:+ String q ""));
      [done|done|done|apply rev_quoted|done..].
  - intros q' body' Hq' Heq.
    destruct (quote_not_space q' Hq') as [Hqs' _].
    destruct l as [|c l].
    + destruct Hpad as [|Hr']; [done|].
      apply (f_equal String.rev) in Heq.
      change ("" +:+ ?x) with x in Heq.
      rewrite rev_app_distr, !rev_quoted in Heq.
      apply string_forall_rev in Hr.
      destruct (String.rev r) as [|c r'] eqn:Hrev.
      * apply (f_equal String.rev) in Hrev.
        by rewrite rev_involutive in Hrev.
      * rewrite string_app_cons in Heq. injection Heq as -> _.
        destruct Hr as [Hc _]. congruence.
    + rewrite string_app_cons in Heq. injection Heq as -> _.
      destruct Hl as [Hc _]. congruence.
Qed.

(** X13: an input that is white space from end to end, the empty input
    included, gives the empty string. *)
Theorem TrimQuoteAndSpace_all_space input :
  all_space input → TrimQuoteAndSpace input = "".
Proof.
  intros Hsp. rewrite TrimQuoteAndSpace_unquoted.
  - by apply trim_start_all_space.
  - intros q body Hq ->.
    destruct (quote_not_space q Hq) as [Hqs _].
    destruct Hsp as [Hc _]. congruence.
Qed.

End TrimmingEdges.

Lemma TrimQuoteAndSpace_space_protects_quotes_witness :
  @TrimQuoteAndSpace samples.ascii_only (" " +:+ "'a b'" +:+ "  ") = "'a b'".
Proof.
  apply (@TrimQuoteAndSpace_space_protects_quotes samples.ascii_only
           " " "  " SQUOTE "a b");
    [by right | by vm_compute | by vm_compute | by left].
Defined.

Lemma TrimQuoteAndSpace_all_space_witness :
  @TrimQuoteAndSpace samples.ascii_only "   " = "".
Proof.
  apply (@TrimQuoteAndSpace_all_space samples.ascii_only "   ").
  by vm_compute.
Defined.

(** ** The map join, continued *)
Section KeysShape.
Implicit Types (m : gmap string string) (visit : list (string * string)).
Implicit Types (s a b : string) (pieces : list string) (sep : ascii).

Lemma len_app a b :
  gostrings.len (a +:+ b) = (gostrings.len a + gostrings.len b)%nat.
Proof.
  induction a as [|c a IH]; [done|].
  rewrite string_app_cons. simpl. by rewrite IH.
Qed.

Lemma KeysString_inv m s :
  KeysString m s →
  ∃ visit, visit ≡ₚ map_to_list m
           ∧ s = gostrings.Join (pair_string <$> visit) ",".
Proof.
  intros [visit Hvisit]. exists visit. split; [done|].
  apply KeysString_visiting_eq.
Qed.

Lemma len_pair_string (kv : string * string) :
  gostrings.len (pair_string kv)
  = (gostrings.len kv.1 + 1 + gostrings.len kv.2)%nat.
Proof. unfold pair_string. rewrite !len_app. simpl. lia. Qed.

(** The length of a join: the pieces and one separator between each two. *)
Lemma len_Join_pairs visit :
  gostrings.len (gostrings.Join (pair_string <$> visit) ",")
  = (rendered_length visit + (length visit - 1))%nat.
Proof.
  unfold rendered_length.
  induction visit as [|kv [|kv' visit] IH].
  - done.
  - simpl. rewrite len_pair_string. lia.
  - change (gostrings.Join (pair_string <$> kv :: kv' :: visit) ",")
      with (pair_string kv +:+ ","
            +:+ gostrings.Join (pair_string <$> kv' :: visit) ",").
    rewrite !len_app, IH, len_pair_string. simpl. lia.
Qed.

(** X14: the result of [KeysString] is the empty string exactly when the
    map is empty. *)
Theorem KeysString_empty_iff m s : KeysString m s → (s = "" ↔ m = ∅).
Proof.
  intros (visit & Hvisit & ->)%KeysString_inv. split.
  - intros Hempty. apply (f_equal gostrings.len) in Hempty.
    rewrite len_Join_pairs in Hempty.
    destruct visit as [|kv visit].
    + apply map_to_list_empty_iff. by apply Permutation_nil.
    + unfold rendered_length in Hempty. simpl in Hempty. lia.
  - intros ->. rewrite map_to_list_empty in Hvisit.
    by apply Permutation_nil_r in Hvisit as ->.
Qed.

(** X15: whatever order the iteration takes, the result of [KeysString]
    has the same length: for each entry its key, an equals sign and its
    value, and one comma less than there are entries. *)
Theorem KeysString_length m s :
  KeysString m s →
  gostrings.len s = (rendered_length (map_to_list m) + (size m - 1))%nat
  ∧ ∀ s', KeysString m s' → gostrings.len s' = gostrings.len s.
Proof.
  assert (∀ x, KeysString m x →
            gostrings.len x
            = (rendered_length (map_to_list m) + (size m - 1))%nat) as Hlen.
  { intros x (visit & Hvisit & ->)%KeysString_inv.
    rewrite len_Join_pairs. unfold rendered_length.
    by rewrite Hvisit, length_map_to_list. }
  intros Hs. split; [by apply Hlen|].
  intros s' Hs'. by rewrite (Hlen s), (Hlen s').
Qed.

Lemma free_of_app sep a b : free_of sep (a +:+ b) ↔ free_of sep a ∧ free_of sep b.
Proof. apply string_forall_app. Qed.

(** Splitting a join of separator-free pieces gives the pieces back. *)
Lemma Split_Join pieces sep :
  pieces ≠ [] → Forall (free_of sep) pieces →
  gostrings.Split (gostrings.Join pieces (String sep "")) sep = pieces.
Proof.
  induction pieces as [|p [|p' pieces] IH]; intros Hne Hfree; [done|..].
  - simpl. apply Split_free. by inversion Hfree.
  - change (gostrings.Join (p :: p' :: pieces) (String sep ""))
      with (p +:+ String sep (gostrings.Join (p' :: pieces) (String sep ""))).
    inversion Hfree as [|?? Hp Hrest]; subst.
    rewrite Split_app, Split_free, IH by done. done.
Qed.

(** X16: when the map is not empty and no key and no value holds a
    comma, splitting the result of [KeysString] at the commas gives the
    key=value renderings of the entries back, one piece for each entry,
    in the order of the iteration. *)
Theorem KeysString_Split m s :
  KeysString m s →
  m ≠ ∅ →
  (∀ k v, m !! k = Some v → free_of COMMA k ∧ free_of COMMA v) →
  gostrings.Split s COMMA ≡ₚ pair_string <$> map_to_list m
  ∧ length (gostrings.Split s COMMA) = size m.
Proof.
  intros (visit & Hvisit & ->)%KeysString_inv Hne Hfree.
  assert (gostrings.Split (gostrings.Join (pair_string <$> visit) ",") COMMA
          = pair_string <$> visit) as ->.
  { apply (Split_Join (pair_string <$> visit) COMMA).
    - destruct visit; [|done].
      apply Permutation_nil in Hvisit.
      by apply map_to_list_empty_iff in Hvisit.
    - apply Forall_fmap, Forall_forall. intros [k v] Hkv.
      rewrite Hvisit in Hkv. apply elem_of_map_to_list in Hkv.
      destruct (Hfree k v Hkv) as [Hk Hv].
      unfold pair_string, compose. simpl.
      rewrite !free_of_app. split_and!; [done| |done].
      split; [discriminate|exact I]. }
  split.
  - by apply fmap_Permutation.
  - by rewrite length_fmap, Hvisit, length_map_to_list.
Qed.

End KeysShape.

Lemma KeysString_empty_iff_witness : ("" : string) = "" ↔ (∅ : gmap string string) = ∅.
Proof.
  apply (KeysString_empty_iff ∅ "").
  apply (KeysString_intro _ []). unfold range_order.
  by rewrite map_to_list_empty.
Defined.

Lemma KeysString_length_witness :
  gostrings.len "b=2,a=1"
  = (rendered_length (map_to_list ({["a" := "1"; "b" := "2"]}
                                     : gmap string string))
     + (size ({["a" := "1"; "b" := "2"]} : gmap string string) - 1))%nat.
Proof.
  assert (KeysString {["a" := "1"; "b" := "2"]} "b=2,a=1") as Hs.
  { apply (KeysString_intro _ [("b", "2"); ("a", "1")]).
    unfold range_order. vm_compute. apply perm_swap. }
  exact (proj1 (KeysString_length {["a" := "1"; "b" := "2"]} "b=2,a=1" Hs)).
Defined.

Lemma KeysString_Split_witness :
  gostrings.Split "b=2,a=1" COMMA
    ≡ₚ pair_string <$> map_to_list ({["a" := "1"; "b" := "2"]}
                                      : gmap string string)
  ∧ length (gostrings.Split "b=2,a=1" COMMA)
    = size ({["a" := "1"; "b" := "2"]} : gmap string string).
Proof.
  apply (KeysString_Split {["a" := "1"; "b" := "2"]} "b=2,a=1").
  - apply (KeysString_intro _ [("b", "2"); ("a", "1")]).
    unfold range_order. vm_compute. apply perm_swap.
  - intros Hempty. apply (f_equal size) in Hempty. vm_compute in Hempty.
    discriminate.
  - intros k v Hkv%elem_of_map_to_list. vm_compute in Hkv.
    apply elem_of_cons in Hkv as [[= -> ->] | Hkv];
      [by vm_compute|].
    apply elem_of_cons in Hkv as [[= -> ->] | Hkv];
      [by vm_compute|].
    by apply elem_of_nil in Hkv.
Defined.

(** ** kubectl argument assembly, continued *)
Section CommandArgsShape.
Implicit Types (args : list string) (namespace context labels : string).

(** The flags of two triples of inputs agree only if the triples do: the
    three flag names differ from their third byte on. *)
Lemma flags_inj n1 c1 l1 n2 c2 l2 :
  flag "--namespace=" n1 ++ flag "--context=" c1 ++ flag "--selector=" l1
  = flag "--namespace=" n2 ++ flag "--context=" c2 ++ flag "--selector=" l2 →
  n1 = n2 ∧ c1 = c2 ∧ l1 = l2.
Proof.
  unfold flag, String.app.
  repeat case_decide; subst; simpl; intros Heq;
    simplify_eq; done.
Qed.

(** X17: on the same leading arguments, two calls of [K8sCommandArgs]
    give the same argument list only for the same namespace, context and
    labels: the inputs can be read back from the result. *)
Theorem K8sCommandArgs_inj args n1 c1 l1 n2 c2 l2 :
  K8sCommandArgs args n1 c1 l1 = K8sCommandArgs args n2 c2 l2 →
  n1 = n2 ∧ c1 = c2 ∧ l1 = l2.
Proof.
  rewrite !K8sCommandArgs_unfold. intros Heq%app_inv_head.
  by apply flags_inj.
Qed.

End CommandArgsShape.

Lemma K8sCommandArgs_inj_witness :
  ("ns1" : string) = "ns1" ∧ ("" : string) = "" ∧ ("app=x" : string) = "app=x".
Proof.
  apply (K8sCommandArgs_inj ["get"; "pods"] "ns1" "" "app=x"
           "ns1" "" "app=x").
  reflexivity.
Defined.

(** ** Texts that trimming leaves alone *)
Section TrimmingFixed.
Context `{gostrings.UnicodeTrim}.
Implicit Types (body : string) (a b : ascii).

(** X18: a text of at least two bytes whose first and last byte are
    ASCII and not white space comes back unchanged, whatever stands in
    between, unless the two bytes are the same quote; so quotes that do
    not match, as a double quote closed by a single one, are left in
    place. *)
Theorem TrimQuoteAndSpace_fixes a b body :
  gostrings.asciiSpace a = false → (nat_of_ascii a < gostrings.RuneSelf)%nat →
  gostrings.asciiSpace b = false → (nat_of_ascii b < gostrings.RuneSelf)%nat →
  ¬ (a = b ∧ (a = DQUOTE ∨ a = SQUOTE)) →
  TrimQuoteAndSpace (String a (body +:+ String b ""))
  = String a (body +:+ String b "").
Proof.
  intros Ha Ha' Hb Hb' Hpair.
  rewrite TrimQuoteAndSpace_unquoted.
  - pose proof (TrimSpace_core "" (String a (body +:+ String b "")) "" a b
                  (body +:+ String b "") (String.rev body +:+ String a ""))
      as Hcore.
    change ("" +:+ ?x) with x in Hcore.
    rewrite app_nil_r_string in Hcore.
    apply Hcore; [done|done|done| |done..].
    by rewrite rev_cons, rev_app_distr.
  - intros q body' Hq Heq. injection Heq as -> Heq.
    apply (f_equal String.rev) in Heq.
    rewrite !rev_app_distr in Heq. injection Heq as -> _.
    by apply Hpair.
Qed.

End TrimmingFixed.

Lemma TrimQuoteAndSpace_fixes_witness :
  @TrimQuoteAndSpace samples.ascii_only
    (String DQUOTE ("abc" +:+ String SQUOTE ""))
  = String DQUOTE ("abc" +:+ String SQUOTE "").
Proof.
  apply (@TrimQuoteAndSpace_fixes samples.ascii_only DQUOTE SQUOTE "abc");
    [reflexivity | vm_compute; lia | reflexivity | vm_compute; lia |].
  intros [Heq _]. discriminate Heq.
Defined.
